(** * A shallow embedding of the htmx infinite-scroll gallery server
    (src/main.rs): direction parsing, the image-reference split done by the
    [Modal] component, the HTML fragments produced by the Leptos components,
    the three axum handlers and the process-wide [IMAGE] counter.

    Fallible code ([unwrap] on [split_once] and on [parse::<i32>], and
    integer overflow in a build with overflow checks) returns [None]: a
    [None] is a panic while handling the request.  Rendered fragments are
    modelled as HTML trees (the hydration markers Leptos adds are left out). *)

From Stdlib Require Import ZArith Lia Ascii Sorted.
From stdpp Require Import base strings gmap list pretty.

Open Scope Z_scope.
#[local] Set Warnings "-register-all".

(** ** Machine integers *)

(** Rust arithmetic on fixed-width integers depends on the build profile:
    the default [dev] profile has overflow checks (an overflowing [+]/[-]
    panics), the [release] profile wraps around. *)
Inductive profile := Debug | Release.

Definition i32_min : Z := -2147483648.
Definition i32_max : Z := 2147483647.
Definition u32_max : N := 4294967295.

Definition wrap_i32 (z : Z) : Z := (z + 2^31) mod 2^32 - 2^31.

(** Result of an i32 [+] or [-] whose mathematical value is [z]. *)
Definition i32_result (p : profile) (z : Z) : option Z :=
  if (i32_min <=? z) && (z <=? i32_max) then Some z
  else match p with Debug => None | Release => Some (wrap_i32 z) end.

Definition i32_add (p : profile) (a b : Z) : option Z := i32_result p (a + b).
Definition i32_sub (p : profile) (a b : Z) : option Z := i32_result p (a - b).

(** [a + b] on u32. *)
Definition u32_add (p : profile) (a b : N) : option N :=
  if (a + b <=? u32_max)%N then Some (a + b)%N
  else match p with Debug => None | Release => Some ((a + b) mod 2^32)%N end.

(** ** Direction *)

Inductive Direction := Left | Right.

(** [impl Display for Direction] *)
Definition direction_fmt (d : Direction) : string :=
  match d with Left => "left" | Right => "right" end.

(** [impl FromStr for Direction]; [Err(())] is [None]. *)
Definition direction_from_str (s : string) : option Direction :=
  if String.eqb s "left" then Some Left
  else if String.eqb s "right" then Some Right
  else None.

(** ** Strings *)

(** [str::split_once] on a [char] pattern: split at the first occurrence. *)
Fixpoint split_once (c : ascii) (s : string) : option (string * string) :=
  match s with
  | EmptyString => None
  | String a s' =>
      if Ascii.eqb a c then Some (EmptyString, s')
      else match split_once c s' with
           | Some (l, r) => Some (String a l, r)
           | None => None
           end
  end.

(** Decimal digit of an ASCII byte ([char::to_digit(10)]). *)
Definition digit_val (a : ascii) : option Z :=
  let n := nat_of_ascii a in
  if (48 <=? n)%nat && (n <=? 57)%nat then Some (Z.of_nat n - 48) else None.

(** The accumulation loop of [i32::from_str_radix(_, 10)]: [checked_mul]
    by 10 then [checked_add] of the digit (non-negative numbers) or
    [checked_sub] of the digit (after a leading [-]); any overflow is an
    error.  Checking the combined value is the same check, as [d >= 0]. *)
Fixpoint acc_pos (acc : Z) (s : string) : option Z :=
  match s with
  | EmptyString => Some acc
  | String a s' =>
      match digit_val a with
      | None => None
      | Some d =>
          let acc' := acc * 10 + d in
          if acc' <=? i32_max then acc_pos acc' s' else None
      end
  end.

Fixpoint acc_neg (acc : Z) (s : string) : option Z :=
  match s with
  | EmptyString => Some acc
  | String a s' =>
      match digit_val a with
      | None => None
      | Some d =>
          let acc' := acc * 10 - d in
          if i32_min <=? acc' then acc_neg acc' s' else None
      end
  end.

(** [str::parse::<i32>]: empty input is an error, a lone sign is an error,
    a leading [+] or [-] is accepted, then decimal digits only. *)
Definition parse_i32 (s : string) : option Z :=
  match s with
  | EmptyString => None
  | String a rest =>
      if (Ascii.eqb a "+" || Ascii.eqb a "-") && String.eqb rest EmptyString then None
      else if Ascii.eqb a "+" then acc_pos 0 rest
      else if Ascii.eqb a "-" then acc_neg 0 rest
      else acc_pos 0 s
  end.

(** Display of an i32 / u32 with [format!]: decimal, [-] sign. *)
Definition fmt_i32 (z : Z) : string := pretty z.
Definition fmt_u32 (n : N) : string := pretty n.

(** The first two lines of the [Modal] component:
    [let (base, id) = url.split_once('?').unwrap();
     let id = id.parse::<i32>().unwrap();] *)
Definition parse_ref (url : string) : option (string * Z) :=
  match split_once "?" url with
  | None => None
  | Some (base, id) =>
      match parse_i32 id with
      | None => None
      | Some n => Some (base, n)
      end
  end.

(** ** HTML fragments *)

Inductive node :=
| Elem (tag : string) (attrs : list (string * string)) (children : list node)
| Text (s : string).

Definition attr_of (k : string) (n : node) : option string :=
  match n with
  | Elem _ attrs _ =>
      match List.find (fun kv => String.eqb (fst kv) k) attrs with
      | Some (_, v) => Some v
      | None => None
      end
  | Text _ => None
  end.

(** The nodes of a fragment, in document order. *)
Fixpoint nodes_of (n : node) : list node :=
  match n with
  | Elem _ _ cs => n :: (fix go (cs : list node) : list node :=
                           match cs with
                           | [] => []
                           | c :: cs' => nodes_of c ++ go cs'
                           end) cs
  | Text _ => [n]
  end.

Definition all_nodes (ns : list node) : list node := List.flat_map nodes_of ns.

Definition is_tag (t : string) (n : node) : bool :=
  match n with Elem t' _ _ => String.eqb t t' | Text _ => false end.

Definition svg_icon (d : string) : node :=
  Elem "svg" [("fill", "none"); ("viewBox", "0 0 24 24"); ("stroke-width", "1.5");
              ("stroke", "currentColor"); ("class", "w-6 h-6")]
    [Elem "path" [("stroke-linecap", "round"); ("stroke-linejoin", "round"); ("d", d)] []].

(** [Indicator] *)
Definition indicator_view : node :=
  Elem "div" [("class", "indicator text-3xl")]
    [Elem "span" [("class", "inline-block animate-bounce")] [Text "."];
     Elem "span" [("class", "inline-block animate-bounce")] [Text "."];
     Elem "span" [("class", "inline-block animate-bounce")] [Text "."]].

(** The markup of [ImageItem] for the generated [url]. *)
Definition item_view (url : string) : node :=
  Elem "li"
    [("tabindex", "1");
     ("class", "w-auto h-auto overflow-hidden flex rounded-xl shadow-md bg-gray-100 group hover:ring-2 hover:ring-neutral-400 hover:ring-offset-2 focus:ring-2 focus:ring-neutral-400 focus:ring-offset-2 cursor-pointer outline-none");
     ("hx-trigger", "click, keyup[key=='Enter']");
     ("hx-get", "/modal/open?url=" +:+ url);
     ("hx-target", "body");
     ("hx-swap", "beforeend")]
    [Elem "img"
       [("class", "w-full h-full object-cover aspect-square transition duration-[2s] group-hover:scale-110 group-focus:scale-110");
        ("src", url); ("alt", EmptyString)] []].

(** The sentinel [li] closing [ImageList]. *)
Definition sentinel_view : node :=
  Elem "li"
    [("class", "w-auto h-auto overflow-hidden flex rounded-xl mt-4 col-span-full justify-center");
     ("id", "indicator-container");
     ("hx-trigger", "intersect delay:0.75s");
     ("hx-get", "/more");
     ("hx-target", "this");
     ("hx-swap", "outerHTML")]
    [indicator_view].

(** The markup of [Modal] once [base], [id] and the two navigation ids are
    known. *)
Definition modal_view (url base modal_id : string) (prev next : Z) : node :=
  Elem "div"
    [("class", "fixed w-full h-full top-0 left-0 focus:opacity-75 overflow-hidden");
     ("hx-target", "this"); ("hx-swap", "outerHTML")]
    [Elem "div" [("class", "w-full h-full bg-gray-800 opacity-75");
                 ("hx-on", "click: this.parentElement.outerHTML = ''")] [];
     Elem "button"
       [("class", "fixed text-2xl top-1/2 -translate-y-1/2 left-10 cursor-pointer text-white p-2 aspect-square rounded-full ring-1 ring-gray-50 active:bg-gray-500");
        ("hx-trigget", "click");
        ("hx-get", "/modal/open?dir=left&url=" +:+ base +:+ "?" +:+ fmt_i32 prev)]
       [svg_icon "M15.75 19.5L8.25 12l7.5-7.5"];
     Elem "button"
       [("class", "fixed text-2xl top-1/2 -translate-y-1/2 right-10 cursor-pointer text-white p-2 aspect-square rounded-full ring-1 ring-gray-50 active:bg-gray-500");
        ("hx-trigget", "click");
        ("hx-get", "/modal/open?dir=right&url=" +:+ base +:+ "?" +:+ fmt_i32 next)]
       [svg_icon "M8.25 4.5l7.5 7.5-7.5 7.5"];
     Elem "div"
       [("id", modal_id);
        ("class", "fixed top-1/2 left-1/2 -translate-x-1/2 -translate-y-1/2 w-4/5 lg:w-1/2 max-w-3xl aspect-square rounded-md shadow-md overflow-hidden outline-none");
        ("tabindex", "1"); ("autofocus", EmptyString)]
       [Elem "img" [("class", "w-full h-full object-cover aspect-square");
                    ("src", url); ("alt", EmptyString)] []];
     Elem "button"
       [("class", "fixed top-6 right-6 rounded-full bg-white shadow-xl w-8 h-8 flex items-center justify-center font-light text-xl text-neutral-700 cursor-pointer");
        ("hx-on", "click: this.parentElement.outerHTML = ''")]
       [svg_icon "M6 18L18 6M6 6l12 12"]].

(** [let modal_id = match dir { ... }] in [Modal]. *)
Definition modal_id_of (dir : option Direction) : string :=
  match dir with
  | Some d => "modal-content-" +:+ direction_fmt d
  | None => "modal-content"
  end.

(** [Modal]: the component is pure apart from its panics.  The [hx-get]
    of the left button ([id - 1]) is formatted before the right one
    ([id + 1]). *)
Definition modal (p : profile) (url : string) (dir : option Direction)
  : option node :=
  match parse_ref url with
  | None => None
  | Some (base, id) =>
      let modal_id := modal_id_of dir in
      match i32_sub p id 1 with
      | None => None
      | Some prev =>
          match i32_add p id 1 with
          | None => None
          | Some next => Some (modal_view url base modal_id prev next)
          end
      end
  end.

(** The request targets of the previous / next buttons of a modal. *)
Definition prev_target (n : node) : option string :=
  match n with Elem _ _ (_ :: b :: _) => attr_of "hx-get" b | _ => None end.
Definition next_target (n : node) : option string :=
  match n with Elem _ _ (_ :: _ :: b :: _) => attr_of "hx-get" b | _ => None end.

(** ** The [IMAGE] counter and the stateful components *)

(** Rendering threads the value of [static mut IMAGE: u32] and may panic.
    A panic ([None]) ends the request, but the static keeps the value it
    had when the panic happened: the increments made before it stay. *)
Definition M (A : Type) : Type := N -> option A * N.

Definition ret {A} (a : A) : M A := fun s => (Some a, s).
Definition bind {A B} (m : M A) (k : A -> M B) : M B :=
  fun s => match m s with
           | (None, s') => (None, s')
           | (Some a, s') => k a s'
           end.
Definition panic {A} : M A := fun s => (None, s).
Definition get_image : M N := fun s => (Some s, s).
Definition put_image (s : N) : M unit := fun _ => (Some tt, s).

Notation "x <- m ;; k" := (bind m (fun x => k))
  (at level 100, m at next level, right associativity).

(** A fallible computation that does not touch the counter. *)
Definition lift {A} (o : option A) : M A := fun s => (o, s).

Definition picsum_prefix : string := "https://picsum.photos/800/800?".

(** [random_image_url]: [IMAGE += 1], then format the new value. *)
Definition random_image_url (p : profile) : M string :=
  img <- get_image ;;
  img' <- lift (u32_add p img 1) ;;
  _ <- put_image img' ;;
  ret (picsum_prefix +:+ fmt_u32 img').

(** [ImageItem] *)
Definition image_item (p : profile) : M node :=
  url <- random_image_url p ;;
  ret (item_view url).

(** [<For each = move || (0..16) ...>]: one [ImageItem] per element, in
    order. *)
Fixpoint for_each (p : profile) (k : nat) : M (list node) :=
  match k with
  | O => ret []
  | S k' =>
      it <- image_item p ;;
      its <- for_each p k' ;;
      ret (it :: its)
  end.

(** [ImageList]: 16 items then the sentinel. *)
Definition image_list (p : profile) : M (list node) :=
  its <- for_each p 16 ;;
  ret (its ++ [sentinel_view]).

Definition title : string := "HTMX Infinite Scroll Gallery".

(** [App]: the page shell around one [ImageList]. *)
Definition app (p : profile) : M (list node) :=
  lst <- image_list p ;;
  ret [Elem "head" []
         [Elem "title" [] [Text title];
          Elem "link" [("rel", "stylesheet"); ("href", "/static/output.css")] []];
       Elem "body"
         [("class", "max-w-7xl m-auto px-8 lg:px-12 pb-12 pt-20 bg-gray-200 font-poppins")]
         [Elem "main" [("class", "w-full flex flex-col items-center gap-2 lg:gap-4 space-y-10")]
            [Elem "h1" [("class", "text-5xl tracking-wide font-semibold")] [Text title];
             Elem "ul" [("id", "images");
                        ("class", "w-full grid grid-cols-2 md:grid-cols-3 lg:grid-cols-4 gap-3")]
               lst];
          Elem "script" [("src", "https://unpkg.com/htmx.org@1.9.3/dist/htmx.min.js")] []]].

(** ** Handlers *)

(** [axum::response::Html<String>]: status 200, HTML content type. *)
Record response := { status : N; content_type : string; body : list node }.

Definition html (b : list node) : response :=
  {| status := 200%N; content_type := "text/html; charset=utf-8"; body := b |}.

(** [Query<HashMap<String, String>>] *)
Abbreviation query := (gmap string string).

(** [GET /] *)
Definition root (p : profile) : M response :=
  b <- app p ;; ret (html b).

(** [GET /more] *)
Definition more (p : profile) : M response :=
  b <- image_list p ;; ret (html b).

(** The two parameters the [modal] handler extracts from the query. *)
Definition modal_url (q : query) : string :=
  match q !! "url" with Some u => u | None => EmptyString end.
Definition modal_dir (q : query) : option Direction :=
  q !! "dir" ≫= direction_from_str.

(** [GET /modal/open] *)
Definition modal_handler (p : profile) (q : query) : M response :=
  n <- lift (modal p (modal_url q) (modal_dir q)) ;;
  ret (html [n]).

(** [N] sequential calls of [random_image_url], collecting the URLs. *)
Fixpoint call_n (p : profile) (k : nat) : M (list string) :=
  match k with
  | O => ret []
  | S k' =>
      u <- random_image_url p ;;
      us <- call_n p k' ;;
      ret (u :: us)
  end.

(** Whether [s] has no occurrence of [c]. *)
Fixpoint no_char (c : ascii) (s : string) : bool :=
  match s with
  | EmptyString => true
  | String a s' => negb (Ascii.eqb a c) && no_char c s'
  end.

(** The URL [random_image_url] returns for the counter value [v]. *)
Definition image_url_of (v : N) : string := picsum_prefix +:+ fmt_u32 v.

(** Whether every byte of [s] is an ASCII decimal digit. *)
Fixpoint all_digits (s : string) : bool :=
  match s with
  | EmptyString => true
  | String a s' => match digit_val a with Some _ => all_digits s' | None => false end
  end.

(** The children of an element. *)
Definition children_of (n : node) : list node :=
  match n with Elem _ _ cs => cs | Text _ => [] end.

(** The query of [GET /modal/open?url=images%3F10&dir=left], decoded. *)
Definition e2e_query : query := <["dir" := "left"]> (<["url" := "images?10"]> ∅).

(** ** Following a request target *)





(** ** Lemmas *)

Section StringLemmas.

Lemma split_once_app (c : ascii) (base rest : string) :
  no_char c base = true ->
  split_once c (base +:+ String c rest) = Some (base, rest).
Proof.
  induction base as [|a base IH]; simpl; intros H.
  - by rewrite Ascii.eqb_refl.
  - apply andb_prop in H as [Ha Hb]. apply negb_true_iff in Ha.
    by rewrite Ha, IH.
Qed.

Lemma split_once_some (c : ascii) (s l r : string) :
  split_once c s = Some (l, r) -> s = l +:+ String c r /\ no_char c l = true.
Proof.
  revert l r; induction s as [|a s IH]; simpl; intros l r H; [discriminate|].
  destruct (Ascii.eqb a c) eqn:E.
  - apply Ascii.eqb_eq in E. inversion H; subst. done.
  - destruct (split_once c s) as [[l' r']|] eqn:E2; [|discriminate].
    inversion H; subst. destruct (IH l' r eq_refl) as [-> ?].
    simpl. rewrite E. done.
Qed.

Lemma split_once_none (c : ascii) (s : string) :
  split_once c s = None <-> no_char c s = true.
Proof.
  induction s as [|a s IH]; simpl; [done|].
  destruct (Ascii.eqb a c); simpl; [done|].
  destruct (split_once c s) as [[??]|]; rewrite <- IH; done.
Qed.

End StringLemmas.

Section ParseLemmas.

Lemma digit_val_range (a : ascii) (d : Z) : digit_val a = Some d -> 0 <= d <= 9.
Proof.
  unfold digit_val. destruct (_ && _) eqn:E; [|discriminate].
  apply andb_prop in E as [E1 E2]. apply Nat.leb_le in E1, E2.
  intros [= <-]. lia.
Qed.

Lemma acc_pos_range (acc : Z) (s : string) (n : Z) :
  0 <= acc <= i32_max -> acc_pos acc s = Some n -> 0 <= n <= i32_max.
Proof.
  revert acc; induction s as [|a s IH]; simpl; intros acc Hacc H.
  - by inversion H; subst.
  - destruct (digit_val a) as [d|] eqn:Ed; [|discriminate].
    apply digit_val_range in Ed.
    destruct (acc * 10 + d <=? i32_max) eqn:E; [|discriminate].
    apply Z.leb_le in E. eapply IH; [|exact H]. lia.
Qed.

Lemma acc_neg_range (acc : Z) (s : string) (n : Z) :
  i32_min <= acc <= 0 -> acc_neg acc s = Some n -> i32_min <= n <= 0.
Proof.
  revert acc; induction s as [|a s IH]; simpl; intros acc Hacc H.
  - by inversion H; subst.
  - destruct (digit_val a) as [d|] eqn:Ed; [|discriminate].
    apply digit_val_range in Ed.
    destruct (i32_min <=? acc * 10 - d) eqn:E; [|discriminate].
    apply Z.leb_le in E. eapply IH; [|exact H]. lia.
Qed.

(** Every value [parse::<i32>] returns is an i32. *)
Lemma parse_i32_range (s : string) (n : Z) :
  parse_i32 s = Some n -> i32_min <= n <= i32_max.
Proof.
  unfold parse_i32. destruct s as [|a rest]; [discriminate|].
  destruct (_ && _); [discriminate|].
  destruct (Ascii.eqb a "+"); [|destruct (Ascii.eqb a "-")]; intros H.
  - apply acc_pos_range in H; unfold i32_max, i32_min in *; lia.
  - apply acc_neg_range in H; unfold i32_max, i32_min in *; lia.
  - apply acc_pos_range in H; unfold i32_max, i32_min in *; lia.
Qed.

Lemma parse_ref_some (url base : string) (id : Z) :
  parse_ref url = Some (base, id) ->
  exists r, url = base +:+ String "?" r /\ no_char "?" base = true /\
            parse_i32 r = Some id.
Proof.
  unfold parse_ref. destruct (split_once "?" url) as [[b r]|] eqn:E; [|discriminate].
  destruct (parse_i32 r) eqn:Ep; [|discriminate]. intros [= <- <-].
  apply split_once_some in E as [-> ?]. eauto.
Qed.

Lemma parse_ref_app (base r : string) (n : Z) :
  no_char "?" base = true -> parse_i32 r = Some n ->
  parse_ref (base +:+ String "?" r) = Some (base, n).
Proof.
  intros Hb Hr. unfold parse_ref. by rewrite split_once_app, Hr.
Qed.

Lemma parse_ref_none (url : string) :
  parse_ref url = None <->
  no_char "?" url = true \/
  exists b r, url = b +:+ String "?" r /\ no_char "?" b = true /\ parse_i32 r = None.
Proof.
  unfold parse_ref. destruct (split_once "?" url) as [[b r]|] eqn:E.
  - pose proof (split_once_some _ _ _ _ E) as [-> Hb].
    split.
    + destruct (parse_i32 r) eqn:Er; [discriminate|]. intros _. right. eauto.
    + intros [Hn|(b' & r' & Heq & Hb' & Hr')].
      * apply split_once_none in Hn. congruence.
      * rewrite Heq, split_once_app in E by done. inversion E; subst.
        by rewrite Hr'.
  - apply split_once_none in E. tauto.
Qed.

End ParseLemmas.

Section ModalLemmas.

Lemma i32_result_in (p : profile) (z : Z) :
  i32_min <= z <= i32_max -> i32_result p z = Some z.
Proof.
  intros H. unfold i32_result.
  replace ((i32_min <=? z) && (z <=? i32_max)) with true; [done|].
  symmetry. apply andb_true_intro. split; apply Z.leb_le; lia.
Qed.

Lemma i32_result_release (z : Z) : i32_result Release z = Some (wrap_i32 z).
Proof.
  unfold i32_result. destruct (_ && _) eqn:E; [|done].
  apply andb_prop in E as [E1 E2]. apply Z.leb_le in E1, E2.
  unfold wrap_i32, i32_min, i32_max in *. f_equal.
  rewrite Z.mod_small; lia.
Qed.

Lemma i32_result_debug_out (z : Z) :
  z < i32_min \/ i32_max < z -> i32_result Debug z = None.
Proof.
  intros H. unfold i32_result.
  replace ((i32_min <=? z) && (z <=? i32_max)) with false; [done|].
  symmetry. apply andb_false_iff.
  destruct H; [left|right]; apply Z.leb_gt; lia.
Qed.

Lemma wrap_i32_in (z : Z) : i32_min <= z <= i32_max -> wrap_i32 z = z.
Proof.
  unfold wrap_i32, i32_min, i32_max. intros. rewrite Z.mod_small; lia.
Qed.

(** A well-formed reference whose id is not at an end of the i32 range
    renders, whatever the profile. *)
Lemma modal_in_range (p : profile) (url base : string) (id : Z)
    (d : option Direction) :
  parse_ref url = Some (base, id) -> i32_min < id < i32_max ->
  modal p url d = Some (modal_view url base (modal_id_of d) (id - 1) (id + 1)).
Proof.
  intros H Hr. unfold modal, i32_sub, i32_add. rewrite H.
  rewrite !i32_result_in by lia. done.
Qed.

(** In a release build every well-formed reference renders, with the
    neighbour ids wrapped. *)
Lemma modal_release (url base : string) (id : Z) (d : option Direction) :
  parse_ref url = Some (base, id) ->
  modal Release url d =
    Some (modal_view url base (modal_id_of d) (wrap_i32 (id - 1)) (wrap_i32 (id + 1))).
Proof.
  intros H. unfold modal, i32_sub, i32_add. rewrite H.
  by rewrite !i32_result_release.
Qed.

Lemma modal_debug_extreme (url base : string) (id : Z) (d : option Direction) :
  parse_ref url = Some (base, id) -> id = i32_min \/ id = i32_max ->
  modal Debug url d = None.
Proof.
  intros H Hid. unfold modal, i32_sub, i32_add. rewrite H.
  destruct Hid as [->| ->].
  - rewrite i32_result_debug_out; [done|]. unfold i32_min; lia.
  - rewrite (i32_result_in Debug); [|unfold i32_min, i32_max; lia].
    rewrite i32_result_debug_out; [done|]. unfold i32_max; lia.
Qed.

Lemma modal_none_of_ref (p : profile) (url : string) (d : option Direction) :
  parse_ref url = None -> modal p url d = None.
Proof. intros H. unfold modal. by rewrite H. Qed.

Lemma modal_none_iff_ref (p : profile) (url base : string) (id : Z)
    (d : option Direction) :
  parse_ref url = Some (base, id) ->
  (modal p url d = None <-> p = Debug /\ (id = i32_min \/ id = i32_max)).
Proof.
  intros H.
  destruct (parse_ref_some _ _ _ H) as (r & _ & _ & Hr).
  apply parse_i32_range in Hr.
  assert (id = i32_min \/ id = i32_max \/ i32_min < id < i32_max) as Hc by lia.
  destruct p.
  - destruct Hc as [Hc|[Hc|Hc]].
    + split; [intros _; auto|]. intros _. eapply modal_debug_extreme; eauto.
    + split; [intros _; auto|]. intros _. eapply modal_debug_extreme; eauto.
    + rewrite (modal_in_range _ _ _ _ _ H Hc). split; [discriminate|].
      intros [_ [-> | ->]]; lia.
  - rewrite (modal_release _ _ _ _ H). split; [discriminate|]. intros [? _]; discriminate.
Qed.

Lemma modal_view_prev (url base mid : string) (prev next : Z) :
  prev_target (modal_view url base mid prev next) =
    Some ("/modal/open?dir=left&url=" +:+ base +:+ "?" +:+ fmt_i32 prev).
Proof. reflexivity. Qed.

Lemma modal_view_next (url base mid : string) (prev next : Z) :
  next_target (modal_view url base mid prev next) =
    Some ("/modal/open?dir=right&url=" +:+ base +:+ "?" +:+ fmt_i32 next).
Proof. reflexivity. Qed.

End ModalLemmas.

Section CounterLemmas.

Ltac unfold_m := unfold bind, ret, lift, get_image, put_image in *.

Lemma u32_add_one_mod (p : profile) (c c' : N) :
  u32_add p c 1 = Some c' -> c' = ((c + 1) mod 2^32)%N.
Proof.
  unfold u32_add, u32_max. destruct (c + 1 <=? 4294967295)%N eqn:E.
  - apply N.leb_le in E. intros [= <-]. rewrite N.mod_small; [done|lia].
  - destruct p; [discriminate|]. by intros [= <-].
Qed.

Lemma u32_add_one_debug (c c' : N) :
  u32_add Debug c 1 = Some c' -> c' = (c + 1)%N /\ (c + 1 <= u32_max)%N.
Proof.
  unfold u32_add. destruct (c + 1 <=? u32_max)%N eqn:E; [|discriminate].
  apply N.leb_le in E. intros [= <-]. done.
Qed.

Lemma u32_add_one_in (p : profile) (c : N) :
  (c + 1 <= u32_max)%N -> u32_add p c 1 = Some (c + 1)%N.
Proof. intros H. unfold u32_add. apply N.leb_le in H. by rewrite H. Qed.

Lemma u32_add_one_release (c : N) :
  u32_add Release c 1 = Some ((c + 1) mod 2^32)%N.
Proof.
  unfold u32_add, u32_max. destruct (c + 1 <=? 4294967295)%N eqn:E; [|done].
  apply N.leb_le in E. rewrite N.mod_small; [done|lia].
Qed.

Lemma u32_add_one_none (p : profile) (c : N) :
  u32_add p c 1 = None <-> p = Debug /\ (u32_max < c + 1)%N.
Proof.
  unfold u32_add. destruct (c + 1 <=? u32_max)%N eqn:E.
  - apply N.leb_le in E. split; [discriminate|lia].
  - apply N.leb_gt in E. destruct p; split; try done; intros [? _]; discriminate.
Qed.

Lemma random_image_url_spec (p : profile) (c c' : N) (s : string) :
  random_image_url p c = (Some s, c') ->
  s = image_url_of c' /\ u32_add p c 1 = Some c'.
Proof.
  unfold random_image_url. unfold_m.
  destruct (u32_add p c 1) as [c1|]; [|discriminate]. by intros [= <- <-].
Qed.

Lemma random_image_url_some (p : profile) (c c' : N) :
  u32_add p c 1 = Some c' -> random_image_url p c = (Some (image_url_of c'), c').
Proof. intros H. unfold random_image_url. unfold_m. by rewrite H. Qed.

(** [IMAGE += 1] panics before it writes: the counter is left as it was. *)
Lemma random_image_url_none (p : profile) (c : N) :
  u32_add p c 1 = None -> random_image_url p c = (None, c).
Proof. intros H. unfold random_image_url. unfold_m. by rewrite H. Qed.

Lemma image_item_spec (p : profile) (c c' : N) (x : node) :
  image_item p c = (Some x, c') ->
  x = item_view (image_url_of c') /\ u32_add p c 1 = Some c'.
Proof.
  unfold image_item. unfold_m.
  destruct (random_image_url p c) as [[s|] c1] eqn:E; [|discriminate].
  apply random_image_url_spec in E as [-> ?]. by intros [= <- <-].
Qed.

Lemma image_item_some (p : profile) (c c' : N) :
  u32_add p c 1 = Some c' -> image_item p c = (Some (item_view (image_url_of c')), c').
Proof.
  intros H. unfold image_item. unfold_m. by rewrite (random_image_url_some _ _ _ H).
Qed.

Lemma image_item_none (p : profile) (c : N) :
  u32_add p c 1 = None -> image_item p c = (None, c).
Proof.
  intros H. unfold image_item. unfold_m. by rewrite (random_image_url_none _ _ H).
Qed.

Lemma image_item_cases (p : profile) (c : N) :
  (exists c', u32_add p c 1 = Some c' /\
              image_item p c = (Some (item_view (image_url_of c')), c')) \/
  (u32_add p c 1 = None /\ image_item p c = (None, c)).
Proof.
  destruct (u32_add p c 1) as [c'|] eqn:E.
  - left. exists c'. split; [done|]. by apply image_item_some.
  - right. split; [done|]. by apply image_item_none.
Qed.

Lemma for_each_shape (p : profile) (k : nat) (c c' : N) (ns : list node) :
  for_each p k c = (Some ns, c') ->
  exists urls, length urls = k /\ ns = map item_view urls.
Proof.
  revert c ns; induction k as [|k IH]; intros c ns; simpl; unfold_m.
  - intros [= <- <-]. by exists [].
  - destruct (image_item p c) as [[it|] c1] eqn:E1; [|discriminate].
    destruct (for_each p k c1) as [[its|] c2] eqn:E2; [|discriminate].
    intros [= <- <-]. apply image_item_spec in E1 as [-> _].
    destruct (IH _ _ E2) as (urls & Hl & ->).
    exists (image_url_of c1 :: urls). simpl. by rewrite Hl.
Qed.

(** The counter is a u32: it stays below [2^32]. *)
Lemma for_each_counter (p : profile) (k : nat) (c c' : N) (ns : list node) :
  (c <= u32_max)%N -> for_each p k c = (Some ns, c') ->
  c' = ((c + N.of_nat k) mod 2^32)%N.
Proof.
  revert c ns; induction k as [|k IH]; intros c ns Hc; simpl; unfold_m.
  - intros [= <- <-]. rewrite N.add_0_r, N.mod_small; [done|].
    unfold u32_max in Hc. lia.
  - destruct (image_item p c) as [[it|] c1] eqn:E1; [|discriminate].
    destruct (for_each p k c1) as [[its|] c2] eqn:E2; [|discriminate].
    intros [= <- <-]. apply image_item_spec in E1 as [_ E1].
    apply u32_add_one_mod in E1. subst c1.
    assert (((c + 1) mod 2^32 <= u32_max)%N) as Hm.
    { pose proof (N.mod_lt (c + 1) (2^32)). unfold u32_max. lia. }
    rewrite (IH _ _ Hm E2), N.Div0.add_mod_idemp_l. f_equal. lia.
Qed.

Lemma for_each_debug (k : nat) (c c' : N) (ns : list node) :
  for_each Debug k c = (Some ns, c') ->
  c' = (c + N.of_nat k)%N /\ (c + N.of_nat k <= u32_max \/ k = O)%N.
Proof.
  revert c ns; induction k as [|k IH]; intros c ns; simpl; unfold_m.
  - intros [= <- <-]. split; [lia|]. by right.
  - destruct (image_item Debug c) as [[it|] c1] eqn:E1; [|discriminate].
    destruct (for_each Debug k c1) as [[its|] c2] eqn:E2; [|discriminate].
    intros [= <- <-]. apply image_item_spec in E1 as [_ E1].
    apply u32_add_one_debug in E1 as [-> Hle].
    destruct (IH _ _ E2) as [-> Hk]. split; [lia|]. left.
    destruct Hk as [Hk| ->]; lia.
Qed.

Lemma for_each_some (p : profile) (k : nat) (c : N) :
  (p = Release \/ c + N.of_nat k <= u32_max)%N ->
  exists r c', for_each p k c = (Some r, c').
Proof.
  revert c; induction k as [|k IH]; intros c Hp; simpl; unfold_m; [by do 2 eexists|].
  assert (exists c1, u32_add p c 1 = Some c1 /\
            (p = Release \/ c1 + N.of_nat k <= u32_max)%N) as (c1 & E & Hc1).
  { destruct Hp as [->|Hp].
    - eexists; split; [apply u32_add_one_release|by left].
    - exists (c + 1)%N. split; [apply u32_add_one_in; lia|right; lia]. }
  rewrite (image_item_some _ _ _ E).
  destruct (IH c1 Hc1) as (its & c2 & ->). by do 2 eexists.
Qed.

(** With overflow checks, [k] item renders from [c] that would pass
    [u32::MAX] run until the counter reaches [u32::MAX], then the next
    [IMAGE += 1] panics: the counter is left at [u32::MAX]. *)
Lemma for_each_debug_over (k : nat) (c : N) :
  (c <= u32_max)%N -> (u32_max < c + N.of_nat k)%N ->
  for_each Debug k c = (None, u32_max).
Proof.
  revert c; induction k as [|k IH]; intros c Hc Hk; [lia|]. simpl. unfold_m.
  destruct (decide (c = u32_max)) as [->|Hne].
  - rewrite image_item_none by (apply u32_add_one_none; split; [done|lia]). done.
  - rewrite (image_item_some Debug c (c + 1)) by (apply u32_add_one_in; lia).
    rewrite IH by lia. done.
Qed.

Lemma image_list_spec (p : profile) (c c' : N) (ns : list node) :
  image_list p c = (Some ns, c') ->
  exists its, for_each p 16 c = (Some its, c') /\ ns = its ++ [sentinel_view].
Proof.
  unfold image_list. unfold_m.
  destruct (for_each p 16 c) as [[its|] c1]; [|discriminate].
  intros [= <- <-]. eauto.
Qed.

Lemma image_list_for_each (p : profile) (c : N) :
  image_list p c =
    (match for_each p 16 c with
     | (Some its, c') => (Some (its ++ [sentinel_view]), c')
     | (None, c') => (None, c')
     end).
Proof. unfold image_list. unfold_m. by destruct (for_each p 16 c) as [[?|] ?]. Qed.

Lemma call_n_in_range (p : profile) (k : nat) (c : N) :
  (c + N.of_nat k <= u32_max)%N ->
  call_n p k c =
    (Some (image_url_of <$> ((fun i => c + N.of_nat i)%N <$> seq 1 k)),
     (c + N.of_nat k)%N).
Proof.
  revert c; induction k as [|k IH]; intros c Hk; simpl; unfold_m.
  - by rewrite N.add_0_r.
  - rewrite (random_image_url_some p c (c + 1)) by (apply u32_add_one_in; lia).
    rewrite IH by lia.
    f_equal; [|lia]. f_equal.
    change (seq 1 (S k)) with (1%nat :: seq 2 k).
    replace (c + N.of_nat 1)%N with (c + 1)%N by lia.
    f_equal. change (list_fmap N string image_url_of ?l) with (image_url_of <$> l).
    f_equal. rewrite <- (fmap_S_seq 1 k), <- list_fmap_compose.
    apply list_fmap_ext. intros. simpl. lia.
Qed.

(** In a release build the calls never panic; the values wrap modulo
    [2^32]. *)
Lemma call_n_release (k : nat) (c : N) :
  (c <= u32_max)%N ->
  call_n Release k c =
    (Some (image_url_of <$> ((fun i => (c + N.of_nat i) mod 2^32)%N <$> seq 1 k)),
     ((c + N.of_nat k) mod 2^32)%N).
Proof.
  revert c; induction k as [|k IH]; intros c Hc; simpl; unfold_m.
  - rewrite N.add_0_r, N.mod_small; [done|unfold u32_max in Hc; lia].
  - rewrite (random_image_url_some Release c _ (u32_add_one_release c)).
    rewrite IH by (pose proof (N.mod_lt (c + 1) (2^32)); unfold u32_max; lia).
    rewrite N.Div0.add_mod_idemp_l.
    f_equal; [|f_equal; lia]. f_equal.
    change (seq 1 (S k)) with (1%nat :: seq 2 k).
    replace (c + N.of_nat 1)%N with (c + 1)%N by lia.
    f_equal. change (list_fmap N string image_url_of ?l) with (image_url_of <$> l).
    f_equal. rewrite <- (fmap_S_seq 1 k), <- list_fmap_compose.
    apply list_fmap_ext. intros. simpl.
    rewrite N.Div0.add_mod_idemp_l. f_equal. lia.
Qed.

(** With overflow checks, calls that would pass [u32::MAX] panic once the
    counter is at [u32::MAX], and leave it there. *)
Lemma call_n_debug_over (k : nat) (c : N) :
  (c <= u32_max)%N -> (u32_max < c + N.of_nat k)%N ->
  call_n Debug k c = (None, u32_max).
Proof.
  revert c; induction k as [|k IH]; intros c Hc Hk; [lia|]. simpl. unfold_m.
  destruct (decide (c = u32_max)) as [->|Hne].
  - rewrite random_image_url_none by (apply u32_add_one_none; split; [done|lia]).
    done.
  - rewrite (random_image_url_some Debug c (c + 1)) by (apply u32_add_one_in; lia).
    rewrite IH by lia. done.
Qed.

Lemma seq_fmap_sorted (c : N) (s k : nat) :
  Sorted N.lt ((fun i => c + N.of_nat i)%N <$> seq s k).
Proof.
  revert s; induction k as [|k IH]; intros s; simpl; [constructor|].
  constructor; [apply IH|].
  destruct k; simpl; constructor. lia.
Qed.

#[local] Instance image_url_of_inj : Inj (=) (=) image_url_of.
Proof.
  intros x y H. unfold image_url_of, fmt_u32 in H.
  apply (inj (String.append picsum_prefix)) in H. by apply (inj pretty).
Qed.

#[local] Instance shift_inj (c : N) : Inj (=) (=) (fun i : nat => c + N.of_nat i)%N.
Proof. intros x y H. lia. Qed.

Lemma seq_urls_nodup (c : N) (k : nat) :
  NoDup (image_url_of <$> ((fun i => c + N.of_nat i)%N <$> seq 1 k)).
Proof.
  apply NoDup_fmap_2; [apply _|].
  apply (NoDup_fmap_2 _ (Inj0 := shift_inj c)), NoDup_seq.
Qed.

Lemma sorted_lookup_succ {A} (R : A -> A -> Prop) (l : list A) (i : nat) (a b : A) :
  Sorted R l -> l !! i = Some a -> l !! S i = Some b -> R a b.
Proof.
  revert i; induction l as [|x l IH]; intros i Hs Ha Hb; [discriminate|].
  inversion Hs as [|? ? Hs' Hd]; subst.
  destruct i as [|i].
  - simpl in Ha, Hb. injection Ha as <-. destruct l as [|y l]; [discriminate|].
    simpl in Hb. injection Hb as <-. by inversion Hd.
  - simpl in Ha, Hb. exact (IH i Hs' Ha Hb).
Qed.

End CounterLemmas.

Section ViewLemmas.

Lemma nodes_of_elem (t : string) (a : list (string * string)) (cs : list node) :
  nodes_of (Elem t a cs) = Elem t a cs :: List.flat_map nodes_of cs.
Proof.
  simpl. f_equal.
Qed.

Lemma nodes_of_child (t : string) (a : list (string * string)) (cs : list node)
    (c : node) :
  In c cs -> In c (nodes_of (Elem t a cs)).
Proof.
  intros H. rewrite nodes_of_elem. right. apply in_flat_map.
  exists c. split; [done|]. destruct c; simpl; auto.
Qed.

Lemma modal_shape (p : profile) (url : string) (d : option Direction) (n : node) :
  modal p url d = Some n ->
  exists base prev next, n = modal_view url base (modal_id_of d) prev next.
Proof.
  unfold modal. destruct (parse_ref url) as [[base id]|]; [|discriminate].
  destruct (i32_sub p id 1) as [prev|]; [|discriminate].
  destruct (i32_add p id 1) as [next|]; [|discriminate].
  intros [= <-]. eauto.
Qed.

Lemma nodes_of_desc (t : string) (a : list (string * string)) (cs : list node)
    (c y : node) :
  In c cs -> In y (nodes_of c) -> In y (nodes_of (Elem t a cs)).
Proof.
  intros Hc Hy. rewrite nodes_of_elem. right. apply in_flat_map. eauto.
Qed.

(** The [img] of a rendered modal shows [url]. *)
Lemma modal_view_img (url base mid : string) (prev next : Z) :
  exists x, In x (nodes_of (modal_view url base mid prev next)) /\
            is_tag "img" x = true /\ attr_of "src" x = Some url.
Proof.
  eexists. split.
  - eapply nodes_of_desc; [simpl; do 3 right; left; reflexivity|].
    apply nodes_of_child. simpl. left. reflexivity.
  - split; reflexivity.
Qed.

(** The image container of a rendered modal carries [modal_id]. *)
Lemma modal_view_id (url base mid : string) (prev next : Z) :
  exists x, In x (nodes_of (modal_view url base mid prev next)) /\
            attr_of "id" x = Some mid.
Proof.
  eexists. split; [apply nodes_of_child; simpl; do 3 right; left; reflexivity|].
  reflexivity.
Qed.

Lemma modal_handler_eq (p : profile) (q : query) (c : N) :
  modal_handler p q c = ((fun n => html [n]) <$> modal p (modal_url q) (modal_dir q), c).
Proof. unfold modal_handler, bind, lift, ret. by destruct (modal _ _ _). Qed.

End ViewLemmas.

(** ** The claims *)

Section Claims.

(** C1 (amended).  Rendering the modal for a reference fails exactly when
    the reference has no [?], or the text after its first [?] is not an
    i32 literal, or (only in a build with overflow checks) its id is
    [i32::MIN] or [i32::MAX], where [id - 1] or [id + 1] overflows.  In
    particular "no-separator" and "images?abc" fail in every build. *)
Theorem modal_failure_iff (p : profile) (url : string) (d : option Direction) :
  (modal p url d = None <->
     (no_char "?" url = true \/
      exists b r, url = b +:+ String "?" r /\ no_char "?" b = true /\
                  parse_i32 r = None) \/
     (p = Debug /\
      exists b r id, url = b +:+ String "?" r /\ no_char "?" b = true /\
                     parse_i32 r = Some id /\ (id = i32_min \/ id = i32_max))) /\
  modal p "no-separator" d = None /\ modal p "images?abc" d = None.
Proof.
  split; [|split; apply modal_none_of_ref; reflexivity].
  destruct (parse_ref url) as [[b id]|] eqn:E.
  - rewrite (modal_none_iff_ref _ _ _ _ _ E). split.
    + intros [-> Hid]. right. split; [done|].
      destruct (parse_ref_some _ _ _ E) as (r & Heq & Hb & Hr). eauto 10.
    + intros [Hn|[-> (b' & r & id' & Heq & Hb & Hr & Hid)]].
      * apply parse_ref_none in Hn. congruence.
      * split; [done|]. subst url.
        rewrite (parse_ref_app _ _ _ Hb Hr) in E. by inversion E; subst.
  - rewrite (modal_none_of_ref _ _ _ E). split; [|done].
    intros _. left. by apply parse_ref_none.
Qed.

(** C1: the claim as stated (failure exactly on a malformed reference)
    does not hold in a build with overflow checks: "images?2147483647"
    parses, yet the modal panics on [id + 1]. *)
Lemma modal_failure_claim_counterexample :
  ~ (forall p url d,
       modal p url d = None <->
       (no_char "?" url = true \/
        exists b r, url = b +:+ String "?" r /\ no_char "?" b = true /\
                    parse_i32 r = None)).
Proof.
  intros H. destruct (H Debug "images?2147483647" None) as [H1 _].
  destruct (H1 eq_refl) as [Hn|(b & r & Heq & Hb & Hr)]; [discriminate|].
  pose proof (split_once_app "?" b r Hb) as Hs. rewrite <- Heq in Hs.
  vm_compute in Hs. inversion Hs; subst. discriminate.
Qed.

(** C2.  A [/modal/open] request without [url] uses the empty string,
    which has no [?]: rendering panics in every build, there is no error
    response, and the counter is left alone. *)
Theorem modal_missing_url (p : profile) (q : query) (c : N) :
  q !! "url" = None ->
  modal_url q = EmptyString /\ split_once "?" (modal_url q) = None /\
  parse_ref (modal_url q) = None /\ modal_handler p q c = (None, c).
Proof.
  intros H. unfold modal_url. rewrite H. do 3 (split; [done|]).
  unfold modal_handler, bind, lift, modal_url. by rewrite H.
Qed.

Lemma modal_missing_url_witness :
  (<["dir" := "left"]> (∅ : query)) !! "url" = None /\
  modal_handler Debug (<["dir" := "left"]> ∅) 0%N = (None, 0%N).
Proof.
  split; [reflexivity|].
  apply (modal_missing_url Debug (<["dir" := "left"]> ∅) 0%N). reflexivity.
Defined.

(** C3 (amended).  For "images?5" with no direction the next button
    requests [dir=right] with "images?6" and the previous one [dir=left]
    with "images?4".  For every well-formed reference [(base, id)] whose id
    is strictly inside the i32 range the two targets embed [base] with
    [id - 1] and [dir=left], and [base] with [id + 1] and [dir=right].  At
    [id = i32::MIN] or [i32::MAX] the [-1] / [+1] overflows: with overflow
    checks the modal panics; in a release build it renders with the ids
    wrapped, so the next target of [i32::MAX] embeds [i32::MIN] and the
    previous target of [i32::MIN] embeds [i32::MAX]. *)
Theorem modal_nav_targets (p : profile) (url base : string) (id : Z)
    (d : option Direction) :
  parse_ref url = Some (base, id) ->
  (i32_min < id < i32_max ->
   exists n, modal p url d = Some n /\
     prev_target n = Some ("/modal/open?dir=left&url=" +:+ base +:+ "?" +:+ fmt_i32 (id - 1)) /\
     next_target n = Some ("/modal/open?dir=right&url=" +:+ base +:+ "?" +:+ fmt_i32 (id + 1))) /\
  (id = i32_min \/ id = i32_max -> modal Debug url d = None) /\
  (exists n, modal Release url d = Some n /\
     prev_target n = Some ("/modal/open?dir=left&url=" +:+ base +:+ "?" +:+ fmt_i32 (wrap_i32 (id - 1))) /\
     next_target n = Some ("/modal/open?dir=right&url=" +:+ base +:+ "?" +:+ fmt_i32 (wrap_i32 (id + 1)))) /\
  (id = i32_max -> (next_target <$> modal Release url d) =
     Some (Some ("/modal/open?dir=right&url=" +:+ base +:+ "?" +:+ fmt_i32 i32_min))) /\
  (id = i32_min -> (prev_target <$> modal Release url d) =
     Some (Some ("/modal/open?dir=left&url=" +:+ base +:+ "?" +:+ fmt_i32 i32_max))) /\
  (exists n, modal p "images?5" None = Some n /\
     next_target n = Some "/modal/open?dir=right&url=images?6" /\
     prev_target n = Some "/modal/open?dir=left&url=images?4").
Proof.
  intros H. split; [|split; [|split; [|split; [|split]]]].
  - intros Hr. rewrite (modal_in_range _ _ _ _ _ H Hr). eexists. split; [done|].
    split; [apply modal_view_prev|apply modal_view_next].
  - intros Hid. by apply (modal_debug_extreme url base id).
  - rewrite (modal_release _ _ _ _ H). eexists. split; [done|].
    split; [apply modal_view_prev|apply modal_view_next].
  - intros ->. rewrite (modal_release _ _ _ _ H). reflexivity.
  - intros ->. rewrite (modal_release _ _ _ _ H). reflexivity.
  - rewrite (modal_in_range p "images?5" "images" 5 None);
      [|reflexivity|unfold i32_min, i32_max; lia].
    eexists. split; [done|]. split; reflexivity.
Qed.

Lemma modal_nav_targets_witness :
  parse_ref "images?5" = Some ("images", 5) /\
  (exists n, modal Debug "images?5" None = Some n /\
     prev_target n = Some "/modal/open?dir=left&url=images?4" /\
     next_target n = Some "/modal/open?dir=right&url=images?6") /\
  modal Debug "images?2147483647" None = None /\
  (next_target <$> modal Release "images?2147483647" None) =
    Some (Some "/modal/open?dir=right&url=images?-2147483648").
Proof.
  split; [reflexivity|].
  destruct (modal_nav_targets Debug "images?5" "images" 5 None) as [H1 _];
    [reflexivity|].
  destruct (modal_nav_targets Debug "images?2147483647" "images" 2147483647 None)
    as (_ & H2 & _ & H3 & _); [reflexivity|].
  split; [|split].
  - destruct H1 as (n & Hn & Hp & Hx); [unfold i32_min, i32_max; lia|].
    exists n. split; [done|]. split; [rewrite Hp|rewrite Hx]; reflexivity.
  - apply H2. right. reflexivity.
  - rewrite H3; reflexivity.
Defined.

(** C3: the general navigation rule fails at [id = i32::MAX]: with
    overflow checks the modal for "images?2147483647" panics, so it has no
    next target embedding 2147483648. *)
Lemma modal_nav_targets_counterexample :
  ~ (forall p url base id d,
       parse_ref url = Some (base, id) ->
       exists n, modal p url d = Some n /\
         prev_target n = Some ("/modal/open?dir=left&url=" +:+ base +:+ "?" +:+ fmt_i32 (id - 1)) /\
         next_target n = Some ("/modal/open?dir=right&url=" +:+ base +:+ "?" +:+ fmt_i32 (id + 1))).
Proof.
  intros H.
  destruct (H Debug "images?2147483647" "images" 2147483647 None eq_refl)
    as (n & Hn & _).
  vm_compute in Hn. discriminate.
Qed.

(** C4.  [GET /modal/open?url=images%3F10&dir=left] (query decoded to
    url = "images?10", dir = "left") answers 200 with an HTML content type,
    leaves the counter alone, and its body has an element with id
    "modal-content-left" and an [img] whose [src] is "images?10".  In
    general the image container of a modal rendered with a direction has
    the id "modal-content-" followed by the serialized direction. *)
Theorem modal_open_left_response (p : profile) (c : N) :
  (exists r, modal_handler p e2e_query c = (Some r, c) /\
     status r = 200%N /\ String.prefix "text/html" (content_type r) = true /\
     (exists x, In x (all_nodes (body r)) /\ attr_of "id" x = Some "modal-content-left") /\
     (exists x, In x (all_nodes (body r)) /\ is_tag "img" x = true /\
                attr_of "src" x = Some "images?10")) /\
  (forall url dir n, modal p url (Some dir) = Some n ->
     exists x, In x (nodes_of n) /\
               attr_of "id" x = Some ("modal-content-" +:+ direction_fmt dir)).
Proof.
  split.
  - assert (modal_url e2e_query = "images?10") as Hu by reflexivity.
    assert (modal_dir e2e_query = Some Left) as Hd by reflexivity.
    unfold modal_handler, bind, lift, ret. rewrite Hu, Hd.
    rewrite (modal_in_range p "images?10" "images" 10 (Some Left));
      [|reflexivity|unfold i32_min, i32_max; lia].
    eexists. split; [reflexivity|]. cbn [status content_type body].
    split; [done|]. split; [reflexivity|]. split.
    + destruct (modal_view_id "images?10" "images" "modal-content-left" (10 - 1) (10 + 1))
        as (x & Hx & Hid).
      exists x. split; [|done]. apply in_flat_map. eexists; split; [left; reflexivity|exact Hx].
    + destruct (modal_view_img "images?10" "images" "modal-content-left" (10 - 1) (10 + 1))
        as (x & Hx & Hid).
      exists x. split; [|done]. apply in_flat_map. eexists; split; [left; reflexivity|exact Hx].
  - intros url dir n H. apply modal_shape in H as (base & prev & next & ->).
    apply modal_view_id.
Qed.

(** C5 (amended).  Every List render that completes yields exactly 16
    image items followed by the one sentinel, whatever the counter value.
    A render completes for every counter value in a release build (the
    counter wraps); with overflow checks it completes exactly when the 16
    increments stay within u32 ([c + 16 <= u32::MAX]). *)
Theorem image_list_cardinality (p : profile) (c : N) :
  (forall ns c', image_list p c = (Some ns, c') ->
     exists urls, length urls = 16%nat /\ ns = map item_view urls ++ [sentinel_view]) /\
  ((exists ns c', image_list p c = (Some ns, c')) <->
     p = Release \/ (c + 16 <= u32_max)%N).
Proof.
  split.
  - intros ns c' H. apply image_list_spec in H as (its & H & ->).
    destruct (for_each_shape _ _ _ _ _ H) as (urls & Hl & ->). eauto.
  - split.
    + intros (ns & c' & H). apply image_list_spec in H as (its & H & _).
      destruct p; [right|by left].
      apply for_each_debug in H as [_ [H|H]]; [done|discriminate].
    + intros Hp. destruct (for_each_some p 16 c) as (its & c' & E); [done|].
      exists (its ++ [sentinel_view]), c'. rewrite image_list_for_each, E.
      reflexivity.
Qed.

(** C5: the claim as stated fails with overflow checks: with the counter at
    [u32::MAX] the List render panics and yields no fragment. *)
Lemma image_list_cardinality_counterexample :
  ~ (forall p c, (c <= u32_max)%N ->
       exists ns c', image_list p c = (Some ns, c') /\
         exists urls, length urls = 16%nat /\ ns = map item_view urls ++ [sentinel_view]).
Proof.
  intros H. destruct (H Debug u32_max (N.le_refl _)) as (ns & c' & E & _).
  vm_compute in E. discriminate.
Qed.

(** C6 (amended).  As long as the counter does not pass [u32::MAX]
    ([c + N <= u32::MAX], from the initial [0]: up to [u32::MAX] calls),
    [N] sequential calls of [random_image_url] return the URLs of the
    values [c + 1], ..., [c + N]: strictly increasing, and the URLs are
    pairwise distinct.  Calls that would pass [u32::MAX] panic with
    overflow checks (once the counter is at [u32::MAX], where it stays); in
    a release build the counter wraps: [u32::MAX] is followed by [0], and
    the values are no longer increasing. *)
Theorem image_urls_increasing (p : profile) (k : nat) (c : N) :
  (c <= u32_max)%N ->
  ((c + N.of_nat k <= u32_max)%N ->
   exists urls vs, call_n p k c = (Some urls, (c + N.of_nat k)%N) /\
     urls = image_url_of <$> vs /\
     vs = (fun i => c + N.of_nat i)%N <$> seq 1 k /\
     Sorted N.lt vs /\ NoDup urls) /\
  ((u32_max < c + N.of_nat k)%N -> call_n Debug k c = (None, u32_max)) /\
  ((u32_max < c + N.of_nat k)%N -> (c < u32_max)%N ->
   exists urls vs, call_n Release k c = (Some urls, ((c + N.of_nat k) mod 2^32)%N) /\
     urls = image_url_of <$> vs /\
     vs = (fun i => (c + N.of_nat i) mod 2^32)%N <$> seq 1 k /\
     vs !! (N.to_nat (u32_max - c) - 1)%nat = Some u32_max /\
     vs !! N.to_nat (u32_max - c) = Some 0%N /\
     ~ Sorted N.lt vs).
Proof.
  intros Hc. split; [|split].
  - intros H. rewrite (call_n_in_range _ _ _ H). do 2 eexists.
    split; [reflexivity|]. split; [reflexivity|]. split; [reflexivity|].
    split; [apply seq_fmap_sorted|apply seq_urls_nodup].
  - intros H. by apply call_n_debug_over.
  - intros H Hlt. rewrite (call_n_release _ _ Hc). do 2 eexists.
    split; [reflexivity|]. split; [reflexivity|]. split; [reflexivity|].
    set (j := N.to_nat (u32_max - c)).
    assert (1 <= j < k)%nat as Hj by (subst j; lia).
    assert (((fun i => (c + N.of_nat i) mod 2^32)%N <$> seq 1 k) !! (j - 1)%nat
              = Some u32_max) as H1.
    { rewrite list_lookup_fmap, lookup_seq_lt by lia. simpl. f_equal.
      subst j. rewrite N.mod_small; unfold u32_max in *; lia. }
    assert (((fun i => (c + N.of_nat i) mod 2^32)%N <$> seq 1 k) !! j = Some 0%N) as H2.
    { rewrite list_lookup_fmap, lookup_seq_lt by lia. simpl. f_equal.
      subst j. unfold u32_max in *.
      match goal with |- (?x mod _)%N = _ => replace x with (2^32)%N by lia end.
      apply N.Div0.mod_same. }
    split; [exact H1|]. split; [exact H2|].
    intros Hs. replace j with (S (j - 1)) in H2 by lia.
    pose proof (sorted_lookup_succ _ _ _ _ _ Hs H1 H2). lia.
Qed.

Lemma image_urls_increasing_witness :
  (0 <= u32_max)%N /\
  call_n Release 3 0%N =
    (Some ["https://picsum.photos/800/800?1"; "https://picsum.photos/800/800?2";
           "https://picsum.photos/800/800?3"], 3%N) /\
  call_n Debug 3 4294967294%N = (None, u32_max).
Proof.
  split; [unfold u32_max; lia|].
  destruct (image_urls_increasing Release 3 0%N) as [H _]; [unfold u32_max; lia|].
  destruct (image_urls_increasing Debug 3 4294967294%N) as (_ & H' & _);
    [unfold u32_max; lia|].
  destruct H as (urls & vs & E & Hu & Hv & _); [unfold u32_max; lia|].
  split; [rewrite E, Hu, Hv; reflexivity|].
  apply H'. unfold u32_max; lia.
Defined.

(** C6: past [u32::MAX] the values are no longer increasing: in a release
    build the two calls after the counter reached [u32::MAX - 1] (after
    that many calls from 0) embed 4294967295 then 0. *)
Lemma image_urls_increasing_counterexample :
  ~ (forall p k c urls c', call_n p k c = (Some urls, c') ->
       exists vs, urls = image_url_of <$> vs /\ Sorted N.lt vs).
Proof.
  intros H.
  destruct (H Release 2%nat 4294967294%N
              [image_url_of 4294967295%N; image_url_of 0%N] 0%N) as (vs & Hu & Hs);
    [reflexivity|].
  destruct vs as [|a [|b [|]]]; try discriminate.
  cbn [fmap list_fmap] in Hu. injection Hu as Ha Hb.
  change (pretty 4294967295%N = pretty a) in Ha.
  change (pretty 0%N = pretty b) in Hb.
  apply (inj pretty) in Ha, Hb. subst.
  inversion Hs as [|? ? _ Hd]; subst. inversion Hd; subst. lia.
Qed.

(** C7 (amended).  An image item render that completes adds 1 to the u32
    counter (exactly [c + 1] with overflow checks, modulo [2^32] in a
    release build).  With overflow checks an item render at [u32::MAX]
    panics before writing, leaving the counter unchanged; nothing else
    makes it fail.  The modal handler never changes the counter, whether it
    renders or panics.  A List render that completes (so [GET /more] and
    [GET /]) adds exactly 16, modulo [2^32]; with overflow checks a List
    render from [c] with [c + 16 > u32::MAX] makes the [u32::MAX - c]
    increments that fit, then panics, so [GET /more] and [GET /] leave the
    counter at [u32::MAX]. *)
Theorem counter_frame (p : profile) (c : N) :
  (c <= u32_max)%N ->
  (forall o c', image_item p c = (o, c') ->
     (o <> None -> c' = ((c + 1) mod 2^32)%N /\ (p = Debug -> c' = (c + 1)%N)) /\
     (o = None <-> p = Debug /\ c = u32_max) /\
     (o = None -> c' = c)) /\
  (forall q o c', modal_handler p q c = (o, c') -> c' = c) /\
  (forall ns c', image_list p c = (Some ns, c') ->
     c' = ((c + 16) mod 2^32)%N /\ (p = Debug -> c' = (c + 16)%N)) /\
  (forall r c', more p c = (Some r, c') -> c' = ((c + 16) mod 2^32)%N) /\
  (forall r c', root p c = (Some r, c') -> c' = ((c + 16) mod 2^32)%N) /\
  (p = Debug -> (u32_max < c + 16)%N ->
     image_list p c = (None, u32_max) /\ more p c = (None, u32_max) /\
     root p c = (None, u32_max)).
Proof.
  intros Hc.
  assert (forall ns c', image_list p c = (Some ns, c') ->
            c' = ((c + 16) mod 2^32)%N /\ (p = Debug -> c' = (c + 16)%N)) as Hl.
  { intros ns c' H. apply image_list_spec in H as (its & H & _).
    split; [apply (for_each_counter _ _ _ _ _ Hc H)|].
    intros ->. by apply for_each_debug in H as [-> _]. }
  split; [|split; [|split; [done|split; [|split]]]].
  - intros o c' H.
    destruct (image_item_cases p c) as [(c1 & E & Hi)|[E Hi]];
      rewrite Hi in H; injection H as <- <-.
    + split; [|split; [|discriminate]].
      * intros _. split; [by apply u32_add_one_mod in E|].
        intros ->. by apply u32_add_one_debug in E as [-> _].
      * split; [discriminate|]. intros [-> ->].
        apply u32_add_one_debug in E as [_ ?]. lia.
    + apply u32_add_one_none in E as [-> ?].
      split; [done|]. split; [|done]. split; [intros _; split; [done|lia]|done].
  - intros q o c'. unfold modal_handler, bind, lift, ret.
    destruct (modal p _ _); by intros [= _ <-].
  - intros r c'. unfold more, bind, ret.
    destruct (image_list p c) as [[ns|] c1] eqn:E; [|discriminate].
    intros [= _ <-]. by destruct (Hl ns c1 eq_refl) as [-> _].
  - intros r c'. unfold root, app, bind, ret.
    destruct (image_list p c) as [[ns|] c1] eqn:E; [|discriminate].
    intros [= _ <-]. by destruct (Hl ns c1 eq_refl) as [-> _].
  - intros -> Hover.
    assert (image_list Debug c = (None, u32_max)) as E.
    { rewrite image_list_for_each, for_each_debug_over by (simpl; lia). done. }
    split; [done|]. unfold more, root, app, bind. by rewrite E.
Qed.

Lemma counter_frame_witness :
  (0 <= u32_max)%N /\
  (forall ns c', image_list Release 0%N = (Some ns, c') -> c' = 16%N) /\
  more Debug 4294967280%N = (None, 4294967295%N).
Proof.
  split; [unfold u32_max; lia|]. split.
  - intros ns c' H.
    destruct (counter_frame Release 0%N) as (_ & _ & Hl & _); [unfold u32_max; lia|].
    apply Hl in H as [-> _]. reflexivity.
  - destruct (counter_frame Debug 4294967280%N) as (_ & _ & _ & _ & _ & H);
      [unfold u32_max; lia|].
    apply H; [reflexivity|unfold u32_max; lia].
Defined.

(** C7: the claim as stated (an item render adds exactly 1 and a List
    render exactly 16) fails with overflow checks near [u32::MAX]: a List
    render from 4294967280 panics after 15 increments, leaving the counter
    at 4294967295. *)
Lemma counter_frame_counterexample :
  ~ (forall p c, (c <= u32_max)%N ->
       snd (image_list p c) = (c + 16)%N \/
       snd (image_list p c) = ((c + 16) mod 2^32)%N).
Proof.
  intros H. destruct (H Debug 4294967280%N) as [E|E]; [unfold u32_max; lia| |];
    vm_compute in E; discriminate.
Qed.

(** C8.  A reference [base ? r] split at its first [?] ([base] has no
    [?]) whose tail [r] parses as the i32 [n] gives [(base, n)]; e.g.
    "images?42" gives ("images", 42) and "a/b?0" gives ("a/b", 0). *)
Theorem parse_ref_split (base r : string) (n : Z) :
  no_char "?" base = true -> parse_i32 r = Some n ->
  parse_ref (base +:+ String "?" r) = Some (base, n) /\
  parse_ref "images?42" = Some ("images", 42) /\
  parse_ref "a/b?0" = Some ("a/b", 0).
Proof.
  intros Hb Hr. split; [by apply parse_ref_app|]. split; reflexivity.
Qed.

Lemma parse_ref_split_witness :
  parse_ref ("a/b" +:+ String "?" "0") = Some ("a/b", 0).
Proof. apply (parse_ref_split "a/b" "0" 0); reflexivity. Defined.

(** C9.  Parsing the serialization of a direction gives it back; Left is
    serialized as "left" and Right as "right". *)
Theorem direction_roundtrip :
  (forall d, direction_from_str (direction_fmt d) = Some d) /\
  direction_fmt Left = "left" /\ direction_fmt Right = "right".
Proof. split; [intros []; reflexivity|split; reflexivity]. Qed.

(** C10 (amended).  The id is an i32 that is neither validated nor
    clamped: for every reference [base ? r] whose tail parses as an i32 [n]
    strictly between [i32::MIN] and [i32::MAX] (negative values included)
    the modal renders and its previous / next targets embed [n - 1] and
    [n + 1]; the previous target of "images?0" embeds -1.  At the ends of
    the range the [-1] / [+1] overflows: the render panics with overflow
    checks and wraps in a release build. *)
Theorem modal_unbounded_ids (p : profile) (base r : string) (n : Z)
    (d : option Direction) :
  no_char "?" base = true -> parse_i32 r = Some n -> i32_min < n < i32_max ->
  (exists x, modal p (base +:+ String "?" r) d = Some x /\
     prev_target x = Some ("/modal/open?dir=left&url=" +:+ base +:+ "?" +:+ fmt_i32 (n - 1)) /\
     next_target x = Some ("/modal/open?dir=right&url=" +:+ base +:+ "?" +:+ fmt_i32 (n + 1))) /\
  (prev_target <$> modal p "images?0" None) = Some (Some "/modal/open?dir=left&url=images?-1") /\
  modal Debug "images?2147483647" d = None /\
  modal Debug "images?-2147483648" d = None /\
  (next_target <$> modal Release "images?2147483647" d) =
    Some (Some "/modal/open?dir=right&url=images?-2147483648") /\
  (prev_target <$> modal Release "images?-2147483648" d) =
    Some (Some "/modal/open?dir=left&url=images?2147483647").
Proof.
  intros Hb Hr Hn.
  pose proof (parse_ref_app _ _ _ Hb Hr) as E.
  split; [|split; [|split; [|split; [|split]]]].
  - rewrite (modal_in_range _ _ _ _ _ E Hn). eexists. split; [done|].
    split; [apply modal_view_prev|apply modal_view_next].
  - rewrite (modal_in_range p "images?0" "images" 0 None);
      [reflexivity|reflexivity|unfold i32_min, i32_max; lia].
  - eapply modal_debug_extreme; [reflexivity|by right].
  - eapply modal_debug_extreme; [reflexivity|by left].
  - rewrite (modal_release "images?2147483647" "images" 2147483647 d); reflexivity.
  - rewrite (modal_release "images?-2147483648" "images" (-2147483648) d); reflexivity.
Qed.

Lemma modal_unbounded_ids_witness :
  exists x, modal Release "images?-5" None = Some x /\
    prev_target x = Some "/modal/open?dir=left&url=images?-6" /\
    next_target x = Some "/modal/open?dir=right&url=images?-4".
Proof.
  destruct (modal_unbounded_ids Release "images" "-5" (-5) None) as [(x & Hx & Hp & Hn) _];
    [reflexivity|reflexivity|unfold i32_min, i32_max; lia|].
  exists x. split; [exact Hx|]. split; [rewrite Hp|rewrite Hn]; reflexivity.
Defined.

(** C10: the claim fails at [n = i32::MAX]: in a release build the next
    target of "images?2147483647" embeds -2147483648, not 2147483648. *)
Lemma modal_unbounded_ids_counterexample :
  ~ (forall p base r n d,
       no_char "?" base = true -> parse_i32 r = Some n ->
       exists x, modal p (base +:+ String "?" r) d = Some x /\
         prev_target x = Some ("/modal/open?dir=left&url=" +:+ base +:+ "?" +:+ fmt_i32 (n - 1)) /\
         next_target x = Some ("/modal/open?dir=right&url=" +:+ base +:+ "?" +:+ fmt_i32 (n + 1))).
Proof.
  intros H.
  destruct (H Release "images" "2147483647" 2147483647 None eq_refl eq_refl)
    as (x & Hx & _ & Hn).
  rewrite (modal_release _ "images" 2147483647 None) in Hx by reflexivity.
  injection Hx as <-. rewrite modal_view_next in Hn.
  vm_compute in Hn. discriminate.
Qed.

End Claims.

(** ** Decimal round trips: [format!] of an integer read back by
    [parse::<i32>] *)

Section DecimalLemmas.

Lemma digit_val_char (d : N) :
  (d < 10)%N -> digit_val (pretty_N_char d) = Some (Z.of_N d).
Proof.
  intros H.
  assert (d = 0 \/ d = 1 \/ d = 2 \/ d = 3 \/ d = 4 \/ d = 5 \/ d = 6 \/
          d = 7 \/ d = 8 \/ d = 9)%N as Hd by lia.
  destruct_or! Hd; subst; reflexivity.
Qed.

Lemma acc_pos_pretty_go (x : N) (s : string) :
  acc_pos 0 (pretty_N_go x s) =
    if Z.of_N x <=? i32_max then acc_pos (Z.of_N x) s else None.
Proof.
  revert s; induction (N.lt_wf_0 x) as [x _ IH]; intros s.
  destruct (decide (x = 0)%N) as [->|Hx]; [by rewrite pretty_N_go_0|].
  rewrite pretty_N_go_step by lia. rewrite IH by (apply N.div_lt; lia).
  pose proof (N.div_mod x 10) as Hdm. pose proof (N.mod_lt x 10 ltac:(lia)) as Hm.
  pose proof (N.Div0.div_le_upper_bound x 10 x ltac:(lia)) as Hle.
  simpl acc_pos. rewrite digit_val_char by lia. cbn zeta.
  replace (Z.of_N (x `div` 10) * 10 + Z.of_N (x `mod` 10)) with (Z.of_N x) by lia.
  destruct (Z.of_N (x `div` 10) <=? i32_max) eqn:E1; [done|].
  destruct (Z.of_N x <=? i32_max) eqn:E2; [|done].
  apply Z.leb_gt in E1. apply Z.leb_le in E2. lia.
Qed.


Lemma all_digits_pretty_go (x : N) (s : string) :
  all_digits s = true -> all_digits (pretty_N_go x s) = true.
Proof.
  revert s; induction (N.lt_wf_0 x) as [x _ IH]; intros s Hs.
  destruct (decide (x = 0)%N) as [->|Hx]; [by rewrite pretty_N_go_0|].
  rewrite pretty_N_go_step by lia. apply IH; [apply N.div_lt; lia|].
  simpl. rewrite digit_val_char by (apply N.mod_lt; lia). done.
Qed.

(** A non-empty run of digits is read by the unsigned loop. *)
Lemma parse_i32_digits (s : string) :
  all_digits s = true -> s <> EmptyString -> parse_i32 s = acc_pos 0 s.
Proof.
  destruct s as [|a r]; [done|]. intros Hd _. simpl in Hd.
  unfold parse_i32.
  destruct (Ascii.eqb a "+") eqn:Ep.
  { apply Ascii.eqb_eq in Ep. subst. discriminate. }
  destruct (Ascii.eqb a "-") eqn:Em.
  { apply Ascii.eqb_eq in Em. subst. discriminate. }
  done.
Qed.

Lemma pretty_N_go_nonempty (x : N) :
  x <> 0%N -> pretty_N_go x EmptyString <> EmptyString.
Proof.
  intros Hx He. pose proof (acc_pos_pretty_go x EmptyString) as H.
  rewrite He in H. simpl in H.
  destruct (Z.of_N x <=? i32_max); [|discriminate]. injection H. lia.
Qed.

(** [format!("{}", v)] of a u32 parses back as an i32 exactly when [v]
    fits in i32. *)
Lemma parse_fmt_u32 (v : N) :
  parse_i32 (fmt_u32 v) =
    if Z.of_N v <=? i32_max then Some (Z.of_N v) else None.
Proof.
  unfold fmt_u32, pretty, pretty_N. case_decide as Hv; [by subst|].
  rewrite parse_i32_digits.
  - rewrite acc_pos_pretty_go. by destruct (_ <=? _).
  - by apply all_digits_pretty_go.
  - by apply pretty_N_go_nonempty.
Qed.


(** A byte that is not a digit anywhere after the sign makes the parse
    fail. *)
Lemma acc_pos_qmark (acc : Z) (r1 r2 : string) :
  acc_pos acc (r1 +:+ String "?" r2) = None.
Proof.
  revert acc; induction r1 as [|a r1 IH]; intros acc; [reflexivity|].
  simpl. destruct (digit_val a); [|done]. by destruct (_ <=? _).
Qed.

Lemma acc_neg_qmark (acc : Z) (r1 r2 : string) :
  acc_neg acc (r1 +:+ String "?" r2) = None.
Proof.
  revert acc; induction r1 as [|a r1 IH]; intros acc; [reflexivity|].
  simpl. destruct (digit_val a); [|done]. by destruct (_ <=? _).
Qed.

Lemma parse_i32_qmark (r1 r2 : string) :
  parse_i32 (r1 +:+ String "?" r2) = None.
Proof.
  destruct r1 as [|a r1]; [reflexivity|]. simpl.
  assert (String.eqb (r1 +:+ String "?" r2) EmptyString = false) as ->.
  { apply String.eqb_neq. by destruct r1. }
  rewrite andb_false_r.
  destruct (Ascii.eqb a "+"); [apply acc_pos_qmark|].
  destruct (Ascii.eqb a "-"); [apply acc_neg_qmark|].
  apply (acc_pos_qmark 0 (String a r1)).
Qed.

End DecimalLemmas.

(** ** The query of a request target *)

Section QueryLemmas.









End QueryLemmas.

(** ** Further properties of the code *)

Section Extras.

Ltac unfold_m := unfold bind, ret, lift, get_image, put_image in *.

Lemma for_each_in_range (p : profile) (k : nat) (c : N) :
  (c + N.of_nat k <= u32_max)%N ->
  for_each p k c =
    (Some (item_view <$> (image_url_of <$> ((fun i => c + N.of_nat i)%N <$> seq 1 k))),
     (c + N.of_nat k)%N).
Proof.
  revert c; induction k as [|k IH]; intros c Hk; simpl; unfold_m.
  - by rewrite N.add_0_r.
  - rewrite (image_item_some p c (c + 1)) by (apply u32_add_one_in; lia).
    rewrite IH by lia.
    f_equal; [|lia]. f_equal.
    change (seq 1 (S k)) with (1%nat :: seq 2 k).
    replace (c + N.of_nat 1)%N with (c + 1)%N by lia.
    f_equal.
    change (list_fmap string node item_view ?l) with (item_view <$> l).
    change (list_fmap N string image_url_of ?l) with (image_url_of <$> l).
    do 2 f_equal. rewrite <- (fmap_S_seq 1 k), <- list_fmap_compose.
    apply list_fmap_ext. intros. simpl. lia.
Qed.

(** [Direction::from_str] accepts exactly the two serializations, case
    sensitively: any other string (e.g. "Left", "up", the empty string) is
    rejected. *)
Theorem direction_from_str_exact (s : string) (d : Direction) :
  direction_from_str s = Some d <-> s = direction_fmt d.
Proof.
  unfold direction_from_str.
  destruct (String.eqb_spec s "left") as [->|H1];
    [|destruct (String.eqb_spec s "right") as [->|H2]];
    destruct d; simpl; split; intros; congruence.
Qed.

(** An absent or unrecognised [dir] parameter is not an error: the modal
    handler answers exactly as for the same query without [dir]. *)
Theorem modal_handler_bad_dir (p : profile) (q : query) (c : N) :
  (q !! "dir" = None \/
   exists s, q !! "dir" = Some s /\ s <> "left" /\ s <> "right") ->
  modal_dir q = None /\ modal_handler p q c = modal_handler p (delete "dir" q) c.
Proof.
  intros H.
  assert (modal_dir q = None) as Hd.
  { unfold modal_dir. destruct H as [->|(s & -> & H1 & H2)]; [done|].
    simpl. destruct (direction_from_str s) as [d|] eqn:E; [|done].
    apply direction_from_str_exact in E. destruct d; simpl in E; congruence. }
  split; [done|].
  assert (modal_dir (delete "dir" q) = None) as Hd'.
  { unfold modal_dir. by rewrite lookup_delete_eq. }
  assert (modal_url (delete "dir" q) = modal_url q) as Hu.
  { unfold modal_url. by rewrite lookup_delete_ne. }
  unfold modal_handler. by rewrite Hd, Hd', Hu.
Qed.

Lemma modal_handler_bad_dir_witness :
  modal_handler Release (<["url" := "images?3"]> (<["dir" := "up"]> ∅)) 0%N =
  modal_handler Release (delete "dir" (<["url" := "images?3"]> (<["dir" := "up"]> ∅))) 0%N.
Proof.
  apply (modal_handler_bad_dir Release (<["url" := "images?3"]> (<["dir" := "up"]> ∅)) 0%N).
  right. exists "up". split; [reflexivity|]. split; discriminate.
Defined.

(** The URL an [ImageItem] gets from [random_image_url] for counter value
    [v] is a reference with base "https://picsum.photos/800/800" and id
    [v] when [v] fits in i32.  Opening the modal for it (the item's
    [hx-get] passes it as [url]) renders when [v < i32::MAX] and panics when
    [v > i32::MAX]: images numbered past 2147483647 cannot be opened. *)
Theorem image_url_ref (v : N) :
  parse_ref (image_url_of v) =
    (if Z.of_N v <=? i32_max
     then Some ("https://picsum.photos/800/800", Z.of_N v) else None) /\
  (forall p c, i32_max < Z.of_N v ->
     modal_handler p (<["url" := image_url_of v]> ∅) c = (None, c)) /\
  (forall p c, Z.of_N v < i32_max ->
     exists r, modal_handler p (<["url" := image_url_of v]> ∅) c = (Some r, c)).
Proof.
  assert (parse_ref (image_url_of v) =
    (if Z.of_N v <=? i32_max
     then Some ("https://picsum.photos/800/800", Z.of_N v) else None)) as Hp.
  { change (image_url_of v)
      with ("https://picsum.photos/800/800" +:+ String "?" (fmt_u32 v)).
    unfold parse_ref. rewrite split_once_app by reflexivity.
    rewrite parse_fmt_u32. by destruct (_ <=? _). }
  assert (forall p c, modal_handler p (<["url" := image_url_of v]> ∅) c =
            ((fun n => html [n]) <$> modal p (image_url_of v) None, c)) as Hh.
  { intros p c. rewrite modal_handler_eq. unfold modal_url, modal_dir.
    rewrite lookup_insert_eq, lookup_insert_ne by discriminate.
    by rewrite lookup_empty. }
  split; [done|]. split.
  - intros p c Hv. rewrite Hh, modal_none_of_ref; [done|].
    rewrite Hp. replace (Z.of_N v <=? i32_max) with false; [done|].
    symmetry. by apply Z.leb_gt.
  - intros p c Hv. rewrite Hh.
    rewrite (modal_in_range p _ "https://picsum.photos/800/800" (Z.of_N v));
      [by eexists| |unfold i32_min; lia].
    rewrite Hp. replace (Z.of_N v <=? i32_max) with true; [done|].
    symmetry. apply Z.leb_le. lia.
Qed.



(** Only the first [?] separates: a reference with a second [?] after the
    first one never parses, and the modal panics for it. *)
Theorem modal_second_qmark (p : profile) (b r1 r2 : string) (d : option Direction) :
  no_char "?" b = true ->
  parse_ref (b +:+ String "?" (r1 +:+ String "?" r2)) = None /\
  modal p (b +:+ String "?" (r1 +:+ String "?" r2)) d = None.
Proof.
  intros Hb.
  assert (parse_ref (b +:+ String "?" (r1 +:+ String "?" r2)) = None) as H.
  { unfold parse_ref. rewrite split_once_app by done. by rewrite parse_i32_qmark. }
  split; [done|]. by apply modal_none_of_ref.
Qed.

Lemma modal_second_qmark_witness :
  modal Debug "images?5?x" None = None.
Proof. apply (modal_second_qmark Debug "images" "5" "x" None). reflexivity. Defined.

(** A leading [+] or a leading zero in front of the digits of an id does
    not change it: "images?+5" and "images?05" denote id 5. *)
Theorem parse_i32_plus_zero (s : string) :
  all_digits s = true -> s <> EmptyString ->
  parse_i32 (String "+" s) = parse_i32 s /\ parse_i32 (String "0" s) = parse_i32 s.
Proof.
  intros Hd Hne. rewrite (parse_i32_digits s Hd Hne). split.
  - unfold parse_i32 at 1.
    replace (String.eqb s EmptyString) with false
      by (symmetry; by apply String.eqb_neq).
    reflexivity.
  - rewrite parse_i32_digits; [reflexivity| |discriminate]. exact Hd.
Qed.

Lemma parse_i32_plus_zero_witness :
  parse_i32 "+5" = Some 5 /\ parse_i32 "05" = Some 5.
Proof.
  destruct (parse_i32_plus_zero "5") as [H1 H2]; [reflexivity|discriminate|].
  rewrite H1, H2. split; reflexivity.
Defined.

(** [GET /] embeds, as the children of its [ul#images], exactly the List
    fragment [GET /more] returns from the same counter value, with the same
    effect on the counter; one fails exactly when the other does. *)
Theorem root_embeds_list (p : profile) (c : N) :
  (fst (root p c) = None <-> fst (more p c) = None) /\
  snd (root p c) = snd (more p c) /\
  (forall r c', root p c = (Some r, c') ->
     exists r' x, more p c = (Some r', c') /\ In x (all_nodes (body r)) /\
       attr_of "id" x = Some "images" /\ children_of x = body r').
Proof.
  unfold root, more, app, bind, ret.
  destruct (image_list p c) as [[ns|] c1]; [|split; [done|split; [done|discriminate]]].
  split; [split; discriminate|]. split; [done|]. intros r c' [= <- <-].
  eexists (html ns), _. split; [reflexivity|]. split.
  - apply in_flat_map. eexists. split; [right; left; reflexivity|].
    eapply nodes_of_desc; [left; reflexivity|].
    apply nodes_of_child. right. left. reflexivity.
  - split; reflexivity.
Qed.

(** The only server requests a rendered modal can issue are its two
    navigation buttons; the backdrop and the close button only carry the
    client-side [hx-on] action that removes the modal. *)
Theorem modal_requests (p : profile) (url : string) (d : option Direction) (n : node) :
  modal p url d = Some n ->
  (exists t1 t2, omap (attr_of "hx-get") (nodes_of n) = [t1; t2] /\
     prev_target n = Some t1 /\ next_target n = Some t2) /\
  omap (attr_of "hx-on") (nodes_of n) =
    ["click: this.parentElement.outerHTML = ''"; "click: this.parentElement.outerHTML = ''"].
Proof.
  intros H. apply modal_shape in H as (base & prev & next & ->).
  split; [|reflexivity].
  do 2 eexists. split; [reflexivity|]. split; reflexivity.
Qed.

Lemma modal_requests_witness :
  let n := modal_view "images?5" "images" "modal-content" 4 6 in
  modal Debug "images?5" None = Some n /\
  omap (attr_of "hx-get") (nodes_of n) =
    ["/modal/open?dir=left&url=images?4"; "/modal/open?dir=right&url=images?6"].
Proof.
  intros n. split; [reflexivity|].
  destruct (modal_requests Debug "images?5" None n)
    as [(t1 & t2 & Ht & H1 & H2) _]; [reflexivity|].
  rewrite Ht. simpl in H1, H2. injection H1 as <-. injection H2 as <-.
  reflexivity.
Defined.

(** While the counter stays in u32, one List render shows the images of the
    counter values [c + 1], ..., [c + 16], pairwise distinct, and leaves
    the counter at [c + 16]. *)
Theorem image_list_images (p : profile) (c : N) :
  (c + 16 <= u32_max)%N ->
  image_list p c =
    (Some ((item_view <$> (image_url_of <$> ((fun i => c + N.of_nat i)%N <$> seq 1 16)))
             ++ [sentinel_view]), (c + 16)%N) /\
  NoDup (image_url_of <$> ((fun i => c + N.of_nat i)%N <$> seq 1 16)).
Proof.
  intros H. split; [|apply seq_urls_nodup].
  unfold image_list. unfold_m. rewrite (for_each_in_range p 16 c) by (simpl; lia).
  reflexivity.
Qed.

Lemma image_list_images_witness :
  fst (image_list Release 0%N) <> None.
Proof.
  destruct (image_list_images Release 0%N) as [H _]; [unfold u32_max; lia|].
  rewrite H. discriminate.
Defined.

End Extras.
